(** * coffee_machine.py: beverages, the milk capability and the machine

    A shallow embedding of [src/coffee_machine.py].  The class statements
    become a class table ([bases], [own_method]); instances live in a heap
    addressed by position; [print] appends bytes to a standard-output
    stream; a Python exception is an outcome of its own.  Python text is
    kept as its UTF-8 bytes, one [ascii] per byte. *)

From Stdlib Require Import Ascii.
From Stdlib Require String.
From stdpp Require Import base option list sets strings.

(** ** Class table *)

(** The classes the module declares or names as a base.  [object], the base
    of [ABC], defines neither [prepare] nor [add_milk] and is left out. *)
Inductive cls : Type :=
  | ABC
  | Coffee
  | MilkCoffee
  | Espresso
  | Cappuccino
  | Latte.

Global Instance cls_eq_dec : EqDecision cls.
Proof. solve_decision. Defined.

(** The two method names the beverage classes define. *)
Inductive meth : Type :=
  | prepare
  | add_milk.

Global Instance meth_eq_dec : EqDecision meth.
Proof. solve_decision. Defined.

(** The parenthesised bases of every [class] statement, in source order. *)
Definition bases (c : cls) : list cls :=
  match c with
  | ABC => []
  | Coffee => [ABC]
  | MilkCoffee => [Coffee; ABC]
  | Espresso => [Coffee]
  | Cappuccino => [MilkCoffee]
  | Latte => [MilkCoffee]
  end.

(** A method body of the beverage classes: [pass] under [@abstractmethod],
    or the [return] of a string literal. *)
Inductive body : Type :=
  | Abstract
  | Return (s : string).

Global Instance body_eq_dec : EqDecision body.
Proof. solve_decision. Defined.

(** What each class body defines itself. *)
Definition own_method (c : cls) (m : meth) : option body :=
  match c, m with
  | Coffee, prepare => Some Abstract
  | MilkCoffee, add_milk => Some Abstract
  | Espresso, prepare => Some (Return "☕ Preparando un Espresso...")
  | Cappuccino, prepare => Some (Return "☕ Preparando un Cappuccino...")
  | Cappuccino, add_milk => Some (Return "🥛 Añadiendo leche al Cappuccino...")
  | Latte, prepare => Some (Return "☕ Preparando un Latte...")
  | Latte, add_milk => Some (Return "🥛 Añadiendo leche al Latte...")
  | _, _ => None
  end.

(** Keep the last occurrence of every class: the order in which Python's
    linearisation leaves a base shared by several parents. *)
Fixpoint keep_last (l : list cls) : list cls :=
  match l with
  | [] => []
  | c :: l' => if bool_decide (c ∈ l') then keep_last l' else c :: keep_last l'
  end.

(** Method resolution order: the class, then its bases' orders merged.  The
    fuel bounds the depth of the hierarchy. *)
Fixpoint linearize (fuel : nat) (c : cls) : list cls :=
  match fuel with
  | O => [c]
  | S fuel' => c :: keep_last (flat_map (linearize fuel') (bases c))
  end.

Definition mro (c : cls) : list cls := linearize 6 c.

(** [issubclass(c, d)]: [d] is in the resolution order of [c]. *)
Definition issubclass (c d : cls) : bool := bool_decide (d ∈ mro c).

(** Attribute lookup of a method on the class of an instance: the first
    class of the resolution order that defines it. *)
Fixpoint find_method (l : list cls) (m : meth) : option body :=
  match l with
  | [] => None
  | c :: l' =>
      match own_method c m with
      | Some b => Some b
      | None => find_method l' m
      end
  end.

Definition lookup_method (c : cls) (m : meth) : option body :=
  find_method (mro c) m.

(** [__abstractmethods__]: the names that still resolve to an abstract
    body.  A class with any of them cannot be instantiated. *)
Definition abstract_methods (c : cls) : list meth :=
  filter (fun m => lookup_method c m = Some Abstract) [prepare; add_milk].

Definition is_abstract (c : cls) : bool :=
  negb (bool_decide (abstract_methods c = [])).

(** ** Values, objects and the world *)

(** A reference is the position of an object in the heap. *)
Definition ref : Type := nat.

(** What the beverage methods may return. *)
Inductive value : Type :=
  | VNone
  | VStr (s : string).

(** Heap objects: an instance of a class of the table (those carry no
    attribute), or a [CoffeeMachine] with its one attribute [coffee]. *)
Inductive obj : Type :=
  | OInst (c : cls)
  | OMachine (coffee : ref).

(** The state of a run.  [calls] is an instrumentation: the log of the
    method calls made on beverage instances, oldest first. *)
Record world : Type := World {
  heap : list obj;
  stdout : string;
  calls : list (ref * meth)
}.

Definition empty_world : world := World [] "" [].

(** [TypeError] and [AttributeError] are Python's.  [Fault] is not a Python
    exception: it marks a reference that points nowhere, or a held object
    that is not an instance of a class of the table, which the annotation
    [coffee: Coffee] excludes. *)
Inductive exn : Type :=
  | TypeError
  | AttributeError
  | Fault.

Inductive outcome (A : Type) : Type :=
  | Ok (a : A) (w : world)
  | Raise (e : exn) (w : world).

Arguments Ok {A} a w.
Arguments Raise {A} e w.

(** The world an outcome leaves behind, normal or not. *)
Definition final {A : Type} (o : outcome A) : world :=
  match o with
  | Ok _ w => w
  | Raise _ w => w
  end.

(** Statements: state passing with exceptions. *)
Definition M (A : Type) : Type := world -> outcome A.

Definition ret {A : Type} (a : A) : M A := fun w => Ok a w.

Definition raise {A : Type} (e : exn) : M A := fun w => Raise e w.

Definition bind {A B : Type} (x : M A) (f : A -> M B) : M B :=
  fun w =>
    match x w with
    | Ok a w' => f a w'
    | Raise e w' => Raise e w'
    end.

Notation "x <- c1 ;; c2" := (bind c1 (fun x => c2))
  (at level 100, c1 at next level, right associativity).
Notation "c1 ;; c2" := (bind c1 (fun _ => c2))
  (at level 100, right associativity).

Definition deref (r : ref) : M obj :=
  fun w =>
    match heap w !! r with
    | Some o => Ok o w
    | None => Raise Fault w
    end.

Definition alloc (o : obj) : M ref :=
  fun w => Ok (length (heap w)) (World (heap w ++ [o]) (stdout w) (calls w)).

Definition write (s : string) : M unit :=
  fun w => Ok tt (World (heap w) (stdout w +:+ s) (calls w)).

Definition log_call (r : ref) (m : meth) : M unit :=
  fun w => Ok tt (World (heap w) (stdout w) (calls w ++ [(r, m)])).

(** ** Built-ins *)

Definition LF : ascii := Ascii.ascii_of_nat 10.

Definition newline : string := String LF "".

(** [str(v)] for the values at hand. *)
Definition str (v : value) : string :=
  match v with
  | VNone => "None"
  | VStr s => s
  end.

(** [print(v)]: the text of [v], then the default [end]. *)
Definition print (v : value) : M unit := write (str v +:+ newline).

(** [C()] for a class of the table: [TypeError] while abstract methods
    remain, a fresh instance otherwise (no beverage class has [__init__]). *)
Definition new (c : cls) : M ref :=
  if is_abstract c then raise TypeError else alloc (OInst c).

Definition run_body (b : body) : value :=
  match b with
  | Abstract => VNone
  | Return s => VStr s
  end.

(** [r.m()] on a beverage reference: resolve [m] on the class of the
    instance and run its body.  A machine as the receiver is not modelled
    ([Fault]); the statements on machine operations take the held object
    to be a beverage instance. *)
Definition call_method (r : ref) (m : meth) : M value :=
  o <- deref r ;;
  match o with
  | OInst c =>
      match lookup_method c m with
      | Some b => log_call r m ;; ret (run_body b)
      | None => raise AttributeError
      end
  | OMachine _ => raise Fault
  end.

(** [isinstance(r, d)] for a class [d] of the table. *)
Definition isinstance (r : ref) (d : cls) : M bool :=
  o <- deref r ;;
  match o with
  | OInst c => ret (issubclass c d)
  | OMachine _ => ret false
  end.

(** ** class CoffeeMachine *)

Module CoffeeMachine.

(** [self.coffee] *)
Definition get_coffee (self : ref) : M ref :=
  o <- deref self ;;
  match o with
  | OMachine coffee => ret coffee
  | OInst _ => raise AttributeError
  end.

(** [CoffeeMachine(coffee)]: a fresh machine whose [__init__] stores the
    argument. *)
Definition __init__ (coffee : ref) : M ref := alloc (OMachine coffee).

Definition add_milk (self : ref) : M unit :=
  coffee <- get_coffee self ;;
  b <- isinstance coffee MilkCoffee ;;
  if b : bool then
    coffee' <- get_coffee self ;;
    v <- call_method coffee' add_milk ;;
    print v
  else ret tt.

Definition prepare (self : ref) : M unit :=
  coffee <- get_coffee self ;;
  v <- call_method coffee prepare ;;
  print v.

End CoffeeMachine.

(** ** The script under [if __name__ == "__main__"] *)

Definition main : M unit :=
  espresso <- new Espresso ;;
  cappuccino <- new Cappuccino ;;
  latte <- new Latte ;;
  print (VStr "---- Máquina de Café ----") ;;
  machine1 <- CoffeeMachine.__init__ espresso ;;
  CoffeeMachine.prepare machine1 ;;
  machine2 <- CoffeeMachine.__init__ cappuccino ;;
  CoffeeMachine.prepare machine2 ;;
  CoffeeMachine.add_milk machine2 ;;
  machine3 <- CoffeeMachine.__init__ latte ;;
  CoffeeMachine.prepare machine3 ;;
  CoffeeMachine.add_milk machine3.

(** ** Observations on text and on runs *)

(** The text a body returns when it returns one. *)
Definition description (c : cls) (m : meth) : option string :=
  match lookup_method c m with
  | Some (Return s) => Some s
  | _ => None
  end.

(** The three variants with a constructor call in the script. *)
Definition variants : list cls := [Espresso; Cappuccino; Latte].

(** The variants of the extended capability. *)
Definition milk_variants : list cls := [Cappuccino; Latte].

(** Does the text hold a line feed? *)
Fixpoint has_LF (s : string) : bool :=
  match s with
  | EmptyString => false
  | String a s' => Ascii.eqb a LF || has_LF s'
  end.

(** The lines of an output stream: every line feed ends one, and a
    remainder that is not empty counts as a last line. *)
Fixpoint lines (s : string) : list string :=
  match s with
  | EmptyString => []
  | String a s' =>
      if Ascii.eqb a LF then EmptyString :: lines s'
      else
        match lines s' with
        | [] => [String a EmptyString]
        | l :: ls => String a l :: ls
        end
  end.

(** The stream that printing the given lines one by one leaves. *)
Definition unlines (ls : list string) : string :=
  fold_right (fun l acc => l +:+ newline +:+ acc) "" ls.

(** Python's [needle in hay] on text. *)
Fixpoint contains (needle hay : string) : bool :=
  String.prefix needle hay ||
  match hay with
  | EmptyString => false
  | String _ hay' => contains needle hay'
  end.

(** The world after a call is logged. *)
Definition logged (w : world) (r : ref) (m : meth) : world :=
  World (heap w) (stdout w) (calls w ++ [(r, m)]).

(** The world after a line is printed. *)
Definition printed (w : world) (s : string) : world :=
  World (heap w) (stdout w +:+ s +:+ newline) (calls w).

(** The two operations a caller can invoke on a machine. *)
Inductive op : Type :=
  | OpPrepare
  | OpAddMilk.

(** The beverage method behind each machine operation. *)
Definition op_meth (o : op) : meth :=
  match o with
  | OpPrepare => prepare
  | OpAddMilk => add_milk
  end.

Definition run_op (self : ref) (o : op) : M unit :=
  match o with
  | OpPrepare => CoffeeMachine.prepare self
  | OpAddMilk => CoffeeMachine.add_milk self
  end.

Fixpoint run_ops (self : ref) (os : list op) : M unit :=
  match os with
  | [] => ret tt
  | o :: os' => run_op self o ;; run_ops self os'
  end.

(** Construct a beverage of class [c], a machine around it, and invoke the
    given operations: the shape of every block of the script. *)
Definition scenario (c : cls) (os : list op) : M ref :=
  coffee <- new c ;;
  machine <- CoffeeMachine.__init__ coffee ;;
  run_ops machine os ;;
  ret machine.

(** [n] calls of the same method on the same beverage, results in order. *)
Fixpoint call_repeatedly (n : nat) (r : ref) (m : meth) : M (list value) :=
  match n with
  | O => ret []
  | S n' =>
      v <- call_method r m ;;
      vs <- call_repeatedly n' r m ;;
      ret (v :: vs)
  end.

(** The instance behind a reference satisfies the milk-bearing capability. *)
Definition milk_capable (w : world) (r : ref) : bool :=
  match heap w !! r with
  | Some (OInst c) => issubclass c MilkCoffee
  | _ => false
  end.

(** Every logged call of [add_milk] went to a milk-capable instance. *)
Definition milk_safe (w : world) : bool :=
  forallb (fun rm : ref * meth =>
             match snd rm with
             | add_milk => milk_capable w (fst rm)
             | prepare => true
             end) (calls w).

(** The relation the [class] statements declare: a class derives from
    itself, and from whatever one of its bases derives from. *)
Inductive derives : cls -> cls -> Prop :=
  | derives_refl (c : cls) : derives c c
  | derives_base (c b d : cls) : b ∈ bases c -> derives b d -> derives c d.


(** The lines a machine holding an instance of [c] writes for the operations
    invoked on it: the text of the method, where the class has one. *)
Fixpoint op_lines (c : cls) (os : list op) : list string :=
  match os with
  | [] => []
  | o :: os' =>
      match description c (op_meth o) with
      | Some s => s :: op_lines c os'
      | None => op_lines c os'
      end
  end.

(** The beverage calls behind those lines. *)
Fixpoint op_calls (coffee : ref) (c : cls) (os : list op)
    : list (ref * meth) :=
  match os with
  | [] => []
  | o :: os' =>
      match description c (op_meth o) with
      | Some _ => (coffee, op_meth o) :: op_calls coffee c os'
      | None => op_calls coffee c os'
      end
  end.

(** The statement under the [if] of [CoffeeMachine.add_milk], taken on its
    own: the dispatch to the held beverage's [add_milk]. *)
Definition milk_dispatch (self : ref) : M unit :=
  coffee <- CoffeeMachine.get_coffee self ;;
  v <- call_method coffee add_milk ;;
  print v.

(** A sequence of operations with its [add_milk] invocations left out. *)
Definition without_add_milk (os : list op) : list op :=
  List.filter (fun o : op =>
                 match o with
                 | OpPrepare => true
                 | OpAddMilk => false
                 end) os.

(** ** The class table, by computation *)

Lemma mro_table (c : cls) :
  mro c =
  match c with
  | ABC => [ABC]
  | Coffee => [Coffee; ABC]
  | MilkCoffee => [MilkCoffee; Coffee; ABC]
  | Espresso => [Espresso; Coffee; ABC]
  | Cappuccino => [Cappuccino; MilkCoffee; Coffee; ABC]
  | Latte => [Latte; MilkCoffee; Coffee; ABC]
  end.
Proof. destruct c; reflexivity. Qed.

(** More fuel than the depth of the hierarchy changes nothing. *)
Lemma linearize_fuel (n : nat) (c : cls) : linearize (4 + n) c = mro c.
Proof.
  assert (H1 : forall k, linearize (1 + k) ABC = [ABC]) by reflexivity.
  assert (H2 : forall k, linearize (2 + k) Coffee = [Coffee; ABC]).
  { intros k. change (linearize (2 + k) Coffee)
      with (Coffee :: keep_last (linearize (1 + k) ABC ++ [])).
    rewrite H1. reflexivity. }
  assert (H3 : forall k,
             linearize (3 + k) MilkCoffee = [MilkCoffee; Coffee; ABC]).
  { intros k. change (linearize (3 + k) MilkCoffee)
      with (MilkCoffee ::
              keep_last (linearize (2 + k) Coffee ++
                         linearize (1 + (1 + k)) ABC ++ [])).
    rewrite H2, H1. reflexivity. }
  destruct c.
  - apply (H1 (3 + n)).
  - apply (H2 (2 + n)).
  - apply (H3 (1 + n)).
  - change (linearize (4 + n) Espresso)
      with (Espresso :: keep_last (linearize (2 + (1 + n)) Coffee ++ [])).
    rewrite H2. reflexivity.
  - change (linearize (4 + n) Cappuccino)
      with (Cappuccino :: keep_last (linearize (3 + n) MilkCoffee ++ [])).
    rewrite H3. reflexivity.
  - change (linearize (4 + n) Latte)
      with (Latte :: keep_last (linearize (3 + n) MilkCoffee ++ [])).
    rewrite H3. reflexivity.
Qed.

(** The milk-bearing capability, class by class. *)
Lemma issubclass_MilkCoffee (c : cls) :
  issubclass c MilkCoffee =
  match c with
  | MilkCoffee | Cappuccino | Latte => true
  | _ => false
  end.
Proof. destruct c; reflexivity. Qed.

(** The classes a constructor call accepts. *)
Lemma is_abstract_table (c : cls) :
  is_abstract c =
  match c with
  | Coffee | MilkCoffee => true
  | _ => false
  end.
Proof. destruct c; reflexivity. Qed.

(** The instantiable classes with the base capability are the variants. *)
Lemma base_capability_variants (c : cls) :
  issubclass c Coffee = true -> is_abstract c = false -> c ∈ variants.
Proof.
  destruct c; intros Hs Ha; try discriminate Hs; try discriminate Ha;
    unfold variants; set_solver.
Qed.

(** The instantiable classes with the milk capability are two. *)
Lemma milk_capability_variants (c : cls) :
  issubclass c MilkCoffee = true -> is_abstract c = false ->
  c ∈ milk_variants.
Proof.
  destruct c; intros Hs Ha; try discriminate Hs; try discriminate Ha;
    unfold milk_variants; set_solver.
Qed.

Lemma variants_inv (c : cls) :
  c ∈ variants -> c = Espresso \/ c = Cappuccino \/ c = Latte.
Proof.
  unfold variants. rewrite !elem_of_cons, elem_of_nil. tauto.
Qed.

Lemma milk_variants_inv (c : cls) :
  c ∈ milk_variants -> c = Cappuccino \/ c = Latte.
Proof.
  unfold milk_variants. rewrite !elem_of_cons, elem_of_nil. tauto.
Qed.

(** ** Text *)

Lemma append_cons (a : ascii) (s t : string) :
  String a s +:+ t = String a (s +:+ t).
Proof. reflexivity. Qed.

Lemma append_nil_l (t : string) : "" +:+ t = t.
Proof. reflexivity. Qed.

Lemma append_assoc (s t u : string) : (s +:+ t) +:+ u = s +:+ (t +:+ u).
Proof.
  induction s as [|a s IH].
  - reflexivity.
  - rewrite !append_cons. now rewrite IH.
Qed.

(** A text without line feed, followed by one, is the first line. *)
Lemma lines_first (l rest : string) :
  has_LF l = false -> lines (l +:+ newline +:+ rest) = l :: lines rest.
Proof.
  induction l as [|a l IH]; intros H.
  - reflexivity.
  - simpl in H. apply orb_false_iff in H as [Ha Hl].
    rewrite append_cons. simpl. rewrite Ha, (IH Hl). reflexivity.
Qed.

Lemma lines_single (l : string) :
  has_LF l = false -> lines (l +:+ newline) = [l].
Proof.
  intros H. change (l +:+ newline) with (l +:+ newline +:+ "").
  now rewrite lines_first.
Qed.

Lemma prefix_nil (s : string) : String.prefix "" s = true.
Proof. destruct s; reflexivity. Qed.

Lemma prefix_app (n b : string) : String.prefix n (n +:+ b) = true.
Proof.
  induction n as [|a n IH].
  - apply prefix_nil.
  - rewrite append_cons. simpl.
    destruct (Ascii.ascii_dec a a) as [_|Hne]; [exact IH | now elim Hne].
Qed.

Lemma prefix_split (n h : string) :
  String.prefix n h = true -> exists b, h = n +:+ b.
Proof.
  revert h. induction n as [|a n IH]; intros h H.
  - exists h. reflexivity.
  - destruct h as [|a' h]; [discriminate H|]. simpl in H.
    destruct (Ascii.ascii_dec a a') as [->|_]; [|discriminate H].
    destruct (IH h H) as [b ->]. exists b. reflexivity.
Qed.

Lemma contains_unfold (n h : string) :
  contains n h =
  String.prefix n h ||
  match h with
  | EmptyString => false
  | String _ h' => contains n h'
  end.
Proof. destruct h; reflexivity. Qed.

(** [contains] decides the existence of an occurrence. *)
Lemma contains_spec (n h : string) :
  contains n h = true <-> exists a b, h = a +:+ n +:+ b.
Proof.
  split.
  - induction h as [|x h IH]; rewrite contains_unfold; intros H;
      apply orb_true_iff in H as [H|H].
    + destruct (prefix_split _ _ H) as [b Hb]. exists "", b. exact Hb.
    + discriminate H.
    + destruct (prefix_split _ _ H) as [b Hb]. exists "", b. exact Hb.
    + destruct (IH H) as (a & b & ->). exists (String x a), b. reflexivity.
  - intros (a & b & ->). induction a as [|x a IH].
    + rewrite append_nil_l, contains_unfold, prefix_app. reflexivity.
    + rewrite append_cons, contains_unfold, IH. apply orb_true_r.
Qed.

(** ** Statements that succeed *)

Lemma bind_Ok {A B : Type} (x : M A) (f : A -> M B) (w w' : world) (a : A) :
  x w = Ok a w' -> bind x f w = f a w'.
Proof. unfold bind. now intros ->. Qed.

Lemma bind_Raise {A B : Type} (x : M A) (f : A -> M B) (w w' : world)
    (e : exn) :
  x w = Raise e w' -> bind x f w = Raise e w'.
Proof. unfold bind. now intros ->. Qed.

Lemma deref_Ok (w : world) (r : ref) (o : obj) :
  heap w !! r = Some o -> deref r w = Ok o w.
Proof. unfold deref. now intros ->. Qed.

Lemma get_coffee_Ok (w : world) (self coffee : ref) :
  heap w !! self = Some (OMachine coffee) ->
  CoffeeMachine.get_coffee self w = Ok coffee w.
Proof.
  intros H. unfold CoffeeMachine.get_coffee.
  now rewrite (bind_Ok _ _ _ _ _ (deref_Ok _ _ _ H)).
Qed.

Lemma isinstance_Ok (w : world) (r : ref) (c d : cls) :
  heap w !! r = Some (OInst c) -> isinstance r d w = Ok (issubclass c d) w.
Proof.
  intros H. unfold isinstance.
  now rewrite (bind_Ok _ _ _ _ _ (deref_Ok _ _ _ H)).
Qed.

Lemma call_method_Ok (w : world) (r : ref) (c : cls) (m : meth) (b : body) :
  heap w !! r = Some (OInst c) -> lookup_method c m = Some b ->
  call_method r m w = Ok (run_body b) (logged w r m).
Proof.
  intros H Hm. unfold call_method.
  rewrite (bind_Ok _ _ _ _ _ (deref_Ok _ _ _ H)). now rewrite Hm.
Qed.

Lemma call_method_missing (w : world) (r : ref) (c : cls) (m : meth) :
  heap w !! r = Some (OInst c) -> lookup_method c m = None ->
  call_method r m w = Raise AttributeError w.
Proof.
  intros H Hm. unfold call_method.
  rewrite (bind_Ok _ _ _ _ _ (deref_Ok _ _ _ H)). now rewrite Hm.
Qed.

Lemma print_Ok (w : world) (v : value) : print v w = Ok tt (printed w (str v)).
Proof. reflexivity. Qed.

(** Every text of the table is a single line that is not empty. *)
Lemma description_line (c : cls) (m : meth) (s : string) :
  lookup_method c m = Some (Return s) -> has_LF s = false /\ s <> "".
Proof.
  destruct c, m; intros H; vm_compute in H; try discriminate H;
    injection H as <-; (split; [reflexivity | discriminate]).
Qed.

(** A call that returns did resolve the method on an instance. *)
Lemma call_method_inv (w w1 : world) (r : ref) (m : meth) (v : value) :
  call_method r m w = Ok v w1 ->
  exists c b,
    heap w !! r = Some (OInst c) /\ lookup_method c m = Some b /\
    v = run_body b /\ w1 = logged w r m.
Proof.
  unfold call_method, bind, deref.
  destruct (heap w !! r) as [[c|k]|]; try discriminate.
  destruct (lookup_method c m) as [b|] eqn:Hm; try discriminate.
  intros H. injection H as <- <-. exists c, b. auto.
Qed.

(** The body of [CoffeeMachine.prepare] on a well-formed machine. *)
Lemma machine_prepare_Ok (w : world) (self coffee : ref) (c : cls) (b : body) :
  heap w !! self = Some (OMachine coffee) ->
  heap w !! coffee = Some (OInst c) ->
  lookup_method c prepare = Some b ->
  CoffeeMachine.prepare self w =
  Ok tt (printed (logged w coffee prepare) (str (run_body b))).
Proof.
  intros Hs Hc Hm. unfold CoffeeMachine.prepare.
  rewrite (bind_Ok _ _ _ _ _ (get_coffee_Ok _ _ _ Hs)).
  rewrite (bind_Ok _ _ _ _ _ (call_method_Ok _ _ _ _ _ Hc Hm)).
  apply print_Ok.
Qed.

(** The guarded branch of [CoffeeMachine.add_milk]. *)
Lemma machine_add_milk_Ok (w : world) (self coffee : ref) (c : cls)
    (b : body) :
  heap w !! self = Some (OMachine coffee) ->
  heap w !! coffee = Some (OInst c) ->
  issubclass c MilkCoffee = true ->
  lookup_method c add_milk = Some b ->
  CoffeeMachine.add_milk self w =
  Ok tt (printed (logged w coffee add_milk) (str (run_body b))).
Proof.
  intros Hs Hc Hi Hm. unfold CoffeeMachine.add_milk.
  rewrite (bind_Ok _ _ _ _ _ (get_coffee_Ok _ _ _ Hs)).
  rewrite (bind_Ok _ _ _ _ _ (isinstance_Ok _ _ _ MilkCoffee Hc)).
  rewrite Hi.
  rewrite (bind_Ok _ _ _ _ _ (get_coffee_Ok _ _ _ Hs)).
  rewrite (bind_Ok _ _ _ _ _ (call_method_Ok _ _ _ _ _ Hc Hm)).
  apply print_Ok.
Qed.

Lemma lines_unlines (ls : list string) :
  forallb (fun l => negb (has_LF l)) ls = true -> lines (unlines ls) = ls.
Proof.
  induction ls as [|l ls IH]; simpl; intros H.
  - reflexivity.
  - apply andb_true_iff in H as [Hl Hls]. apply negb_true_iff in Hl.
    rewrite (lines_first _ _ Hl). now rewrite (IH Hls).
Qed.

Lemma new_Ok (w : world) (c : cls) :
  is_abstract c = false ->
  new c w =
  Ok (length (heap w)) (World (heap w ++ [OInst c]) (stdout w) (calls w)).
Proof. unfold new. now intros ->. Qed.

(** A beverage and a machine around it, allocated one after the other. *)
Lemma construct_Ok (w : world) (c : cls) :
  is_abstract c = false ->
  let n := length (heap w) in
  let w0 := World (heap w ++ [OInst c; OMachine n]) (stdout w) (calls w) in
  (coffee <- new c ;; CoffeeMachine.__init__ coffee) w = Ok (S n) w0 /\
  heap w0 !! S n = Some (OMachine n) /\
  heap w0 !! n = Some (OInst c).
Proof.
  intros Ha n w0. split; [|split].
  - rewrite (bind_Ok _ _ _ _ _ (new_Ok _ _ Ha)).
    unfold CoffeeMachine.__init__, alloc, w0, n. simpl.
    rewrite length_app, <- app_assoc. simpl.
    now replace (length (heap w) + 1) with (S (length (heap w))) by lia.
  - unfold w0. simpl.
    change (heap w ++ [OInst c; OMachine n])
      with (heap w ++ [OInst c] ++ [OMachine n]).
    rewrite app_assoc. apply list_lookup_middle.
    rewrite length_app. simpl. unfold n. lia.
  - unfold w0. simpl. now apply list_lookup_middle.
Qed.

Lemma call_repeatedly_Ok (n : nat) (w : world) (r : ref) (c : cls)
    (m : meth) (b : body) :
  heap w !! r = Some (OInst c) -> lookup_method c m = Some b ->
  call_repeatedly n r m w =
  Ok (replicate n (run_body b))
     (World (heap w) (stdout w) (calls w ++ replicate n (r, m))).
Proof.
  intros Hc Hm. revert w Hc. induction n as [|n IH]; intros w Hc.
  - simpl. unfold ret. rewrite app_nil_r. now destruct w.
  - simpl.
    rewrite (bind_Ok _ _ _ _ _ (call_method_Ok _ _ _ _ _ Hc Hm)).
    rewrite (bind_Ok _ _ _ _ _ (IH (logged w r m) Hc)).
    unfold ret. simpl. now rewrite <- app_assoc.
Qed.

Lemma final_bind {A B : Type} (x : M A) (f : A -> M B) (w : world) :
  final (bind x f w) =
  match x w with
  | Ok a w' => final (f a w')
  | Raise _ w' => w'
  end.
Proof. unfold bind. now destruct (x w). Qed.

(** Where a machine operation leaves the world: as it was, or with one
    call logged and its result printed. *)
Lemma run_op_final (w : world) (self : ref) (o : op) :
  final (run_op self o w) = w \/
  exists coffee c b,
    heap w !! self = Some (OMachine coffee) /\
    heap w !! coffee = Some (OInst c) /\
    lookup_method c (op_meth o) = Some b /\
    (o = OpAddMilk -> issubclass c MilkCoffee = true) /\
    run_op self o w =
      Ok tt (printed (logged w coffee (op_meth o)) (str (run_body b))).
Proof.
  destruct (heap w !! self) as [[k|coffee]|] eqn:Hs.
  - left. destruct o; unfold run_op, CoffeeMachine.prepare,
      CoffeeMachine.add_milk, CoffeeMachine.get_coffee, bind, deref;
      now rewrite Hs.
  - destruct (heap w !! coffee) as [[c|k]|] eqn:Hc.
    + destruct (lookup_method c (op_meth o)) as [b|] eqn:Hm.
      * destruct o; simpl in Hm.
        -- right. exists coffee, c, b. repeat split; try done.
           apply (machine_prepare_Ok _ _ _ _ _ Hs Hc Hm).
        -- destruct (issubclass c MilkCoffee) eqn:Hi.
           ++ right. exists coffee, c, b. repeat split; try done.
              apply (machine_add_milk_Ok _ _ _ _ _ Hs Hc Hi Hm).
           ++ left. unfold run_op, CoffeeMachine.add_milk.
              rewrite (bind_Ok _ _ _ _ _ (get_coffee_Ok _ _ _ Hs)).
              rewrite (bind_Ok _ _ _ _ _ (isinstance_Ok _ _ _ MilkCoffee Hc)).
              now rewrite Hi.
      * left. destruct o; simpl in Hm.
        -- unfold run_op, CoffeeMachine.prepare.
           rewrite (bind_Ok _ _ _ _ _ (get_coffee_Ok _ _ _ Hs)).
           now rewrite (bind_Raise _ _ _ _ _
                          (call_method_missing _ _ _ _ Hc Hm)).
        -- unfold run_op, CoffeeMachine.add_milk.
           rewrite (bind_Ok _ _ _ _ _ (get_coffee_Ok _ _ _ Hs)).
           rewrite (bind_Ok _ _ _ _ _ (isinstance_Ok _ _ _ MilkCoffee Hc)).
           destruct (issubclass c MilkCoffee); [|reflexivity].
           rewrite (bind_Ok _ _ _ _ _ (get_coffee_Ok _ _ _ Hs)).
           now rewrite (bind_Raise _ _ _ _ _
                          (call_method_missing _ _ _ _ Hc Hm)).
    + left. destruct o; unfold run_op, CoffeeMachine.prepare,
        CoffeeMachine.add_milk, CoffeeMachine.get_coffee, isinstance,
        call_method, bind, deref;
        repeat (first [rewrite Hs | rewrite Hc | progress simpl]);
        reflexivity.
    + left. destruct o; unfold run_op, CoffeeMachine.prepare,
        CoffeeMachine.add_milk, CoffeeMachine.get_coffee, isinstance,
        call_method, bind, deref;
        repeat (first [rewrite Hs | rewrite Hc | progress simpl]);
        reflexivity.
  - left. destruct o; unfold run_op, CoffeeMachine.prepare,
      CoffeeMachine.add_milk, CoffeeMachine.get_coffee, bind, deref;
      now rewrite Hs.
Qed.

(** What every operation preserves, every sequence preserves. *)
Lemma run_ops_invariant (P : world -> Prop) :
  (forall w self o, P w -> P (final (run_op self o w))) ->
  forall os w self, P w -> P (final (run_ops self os w)).
Proof.
  intros Hstep os. induction os as [|o os IH]; intros w self Hw.
  - exact Hw.
  - simpl. rewrite final_bind.
    pose proof (Hstep w self o Hw) as H1.
    destruct (run_op self o w) as [[] w1|e w1]; simpl in H1.
    + now apply IH.
    + exact H1.
Qed.

Lemma run_op_heap (w : world) (self : ref) (o : op) :
  heap (final (run_op self o w)) = heap w.
Proof.
  destruct (run_op_final w self o) as [-> | (coffee & c & b & _ & _ & _ & _ & ->)];
    reflexivity.
Qed.

Lemma run_op_milk_safe (w : world) (self : ref) (o : op) :
  milk_safe w = true -> milk_safe (final (run_op self o w)) = true.
Proof.
  intros Hw.
  destruct (run_op_final w self o)
    as [-> | (coffee & c & b & _ & Hc & _ & Hi & ->)]; [exact Hw|].
  unfold milk_safe, milk_capable in *. simpl.
  rewrite forallb_app, Hw. simpl.
  destruct o; simpl; [reflexivity|].
  now rewrite Hc, (Hi eq_refl).
Qed.

Lemma run_ops_heap (os : list op) (w : world) (self : ref) :
  heap (final (run_ops self os w)) = heap w.
Proof.
  apply (run_ops_invariant (fun w' => heap w' = heap w)); [|reflexivity].
  intros w1 self1 o H. now rewrite run_op_heap.
Qed.

Lemma scenario_Ok (w w1 : world) (c : cls) (os : list op) :
  is_abstract c = false ->
  let n := length (heap w) in
  run_ops (S n) os
    (World (heap w ++ [OInst c; OMachine n]) (stdout w) (calls w)) =
    Ok tt w1 ->
  scenario c os w = Ok (S n) w1.
Proof.
  intros Ha n Hrun.
  destruct (construct_Ok w c Ha) as (Hnew & _ & _).
  unfold scenario. unfold bind in *.
  destruct (new c w) as [coffee w'|e w']; [|discriminate Hnew].
  rewrite Hnew. fold n. now rewrite Hrun.
Qed.

(** The block of the script for a beverage with milk, from any world. *)
Lemma milk_scenario_Ok (w : world) (c : cls) (l1 l2 : string) :
  is_abstract c = false ->
  issubclass c MilkCoffee = true ->
  lookup_method c prepare = Some (Return l1) ->
  lookup_method c add_milk = Some (Return l2) ->
  exists w1,
    scenario c [OpPrepare; OpAddMilk] w = Ok (S (length (heap w))) w1 /\
    stdout w1 = stdout w +:+ unlines [l1; l2].
Proof.
  intros Ha Hi Hp Hm.
  destruct (construct_Ok w c Ha) as (_ & Hs & Hc).
  set (n := length (heap w)) in *.
  set (w0 := World (heap w ++ [OInst c; OMachine n]) (stdout w) (calls w))
    in *.
  exists (printed (logged (printed (logged w0 n prepare) l1) n add_milk) l2).
  split.
  - apply (scenario_Ok _ _ _ _ Ha). fold n w0. simpl.
    rewrite (bind_Ok _ _ _ _ _ (machine_prepare_Ok _ _ _ _ _ Hs Hc Hp)).
    rewrite (bind_Ok _ _ _ _ _
               (machine_add_milk_Ok
                  (printed (logged w0 n prepare) (str (run_body (Return l1))))
                  _ _ _ _ Hs Hc Hi Hm)).
    reflexivity.
  - simpl. unfold unlines. simpl. rewrite !append_assoc. reflexivity.
Qed.

(** The block of the script for a beverage without milk, from any world. *)
Lemma plain_scenario_Ok (w : world) (c : cls) (l : string) :
  is_abstract c = false ->
  lookup_method c prepare = Some (Return l) ->
  exists w1,
    scenario c [OpPrepare] w = Ok (S (length (heap w))) w1 /\
    stdout w1 = stdout w +:+ unlines [l].
Proof.
  intros Ha Hp.
  destruct (construct_Ok w c Ha) as (_ & Hs & Hc).
  set (n := length (heap w)) in *.
  set (w0 := World (heap w ++ [OInst c; OMachine n]) (stdout w) (calls w))
    in *.
  exists (printed (logged w0 n prepare) l).
  split.
  - apply (scenario_Ok _ _ _ _ Ha). fold n w0. simpl.
    rewrite (bind_Ok _ _ _ _ _ (machine_prepare_Ok _ _ _ _ _ Hs Hc Hp)).
    reflexivity.
  - reflexivity.
Qed.

(** Different variants describe themselves differently. *)
Lemma description_injective (c d : cls) (m : meth) (s : string) :
  description c m = Some s -> description d m = Some s -> c = d.
Proof.
  destruct c, d, m; intros H1 H2; vm_compute in H1, H2;
    try discriminate H1; try discriminate H2; try reflexivity;
    injection H1 as <-; discriminate H2.
Qed.

Lemma description_lookup (c : cls) (m : meth) (s : string) :
  description c m = Some s <-> lookup_method c m = Some (Return s).
Proof.
  unfold description.
  destruct (lookup_method c m) as [[|t]|]; split; congruence.
Qed.

(** ** The machine's operations *)

(** C1: on a machine whose held beverage lacks the milk-bearing capability,
    [add_milk] returns normally and leaves the world as it found it: nothing
    is written, nothing is raised, no beverage method is called. *)
Theorem add_milk_without_capability_is_noop
    (w : world) (self coffee : ref) (c : cls) :
  heap w !! self = Some (OMachine coffee) ->
  heap w !! coffee = Some (OInst c) ->
  issubclass c MilkCoffee = false ->
  CoffeeMachine.add_milk self w = Ok tt w.
Proof.
  intros Hs Hc Hi. unfold CoffeeMachine.add_milk.
  rewrite (bind_Ok _ _ _ _ _ (get_coffee_Ok _ _ _ Hs)).
  rewrite (bind_Ok _ _ _ _ _ (isinstance_Ok _ _ _ MilkCoffee Hc)).
  rewrite Hi. reflexivity.
Qed.

(** A machine constructed with Espresso: its [add_milk] changes nothing. *)
Lemma add_milk_without_capability_is_noop_witness :
  let w := World [OInst Espresso; OMachine 0] "" [] in
  scenario Espresso [] empty_world = Ok 1 w /\
  CoffeeMachine.add_milk 1 w = Ok tt w.
Proof.
  split.
  - reflexivity.
  - apply (add_milk_without_capability_is_noop _ 1 0 Espresso);
      reflexivity.
Defined.

(** C2: on a machine whose held beverage is an instance with the
    milk-bearing capability, [add_milk] calls the beverage's [add_milk]
    once and writes exactly one line, the text that call returned. *)
Theorem add_milk_with_capability_prints_description
    (w : world) (self coffee : ref) (c : cls) :
  heap w !! self = Some (OMachine coffee) ->
  heap w !! coffee = Some (OInst c) ->
  issubclass c MilkCoffee = true ->
  is_abstract c = false ->
  exists s : string,
    (c = Cappuccino \/ c = Latte) /\
    call_method coffee add_milk w = Ok (VStr s) (logged w coffee add_milk) /\
    CoffeeMachine.add_milk self w =
      Ok tt (printed (logged w coffee add_milk) s) /\
    lines (s +:+ newline) = [s].
Proof.
  intros Hs Hc Hi Ha.
  pose proof (milk_variants_inv _ (milk_capability_variants _ Hi Ha)) as Hv.
  assert (exists s, lookup_method c add_milk = Some (Return s)) as [s Hm].
  { destruct Hv as [-> | ->]; eexists; reflexivity. }
  exists s. split; [exact Hv|]. split; [|split].
  - apply (call_method_Ok _ _ _ _ _ Hc Hm).
  - apply (machine_add_milk_Ok _ _ _ _ _ Hs Hc Hi Hm).
  - apply lines_single. apply (description_line _ _ _ Hm).
Qed.

Lemma add_milk_with_capability_prints_description_witness :
  let w := World [OInst Latte; OMachine 0] "" [] in
  exists s : string,
    (Latte = Cappuccino \/ Latte = Latte) /\
    call_method 0 add_milk w = Ok (VStr s) (logged w 0 add_milk) /\
    CoffeeMachine.add_milk 1 w = Ok tt (printed (logged w 0 add_milk) s) /\
    lines (s +:+ newline) = [s].
Proof.
  apply (add_milk_with_capability_prints_description _ 1 0 Latte);
    reflexivity.
Defined.

(** C6: whichever instantiable class with the base capability the held
    beverage has, the machine's [prepare] returns normally and writes
    exactly one line, the text of that class's [prepare]. *)
Theorem prepare_substitutable (w : world) (self coffee : ref) (c : cls) :
  heap w !! self = Some (OMachine coffee) ->
  heap w !! coffee = Some (OInst c) ->
  issubclass c Coffee = true ->
  is_abstract c = false ->
  exists s : string,
    description c prepare = Some s /\
    CoffeeMachine.prepare self w =
      Ok tt (printed (logged w coffee prepare) s) /\
    lines (s +:+ newline) = [s].
Proof.
  intros Hs Hc Hi Ha.
  pose proof (variants_inv _ (base_capability_variants _ Hi Ha)) as Hv.
  assert (exists s, lookup_method c prepare = Some (Return s)) as [s Hm].
  { destruct Hv as [-> | [-> | ->]]; eexists; reflexivity. }
  exists s. split; [|split].
  - unfold description. now rewrite Hm.
  - apply (machine_prepare_Ok _ _ _ _ _ Hs Hc Hm).
  - apply lines_single. apply (description_line _ _ _ Hm).
Qed.

Lemma prepare_substitutable_witness :
  let w := World [OInst Espresso; OMachine 0] "" [] in
  exists s : string,
    description Espresso prepare = Some s /\
    CoffeeMachine.prepare 1 w = Ok tt (printed (logged w 0 prepare) s) /\
    lines (s +:+ newline) = [s].
Proof.
  apply (prepare_substitutable _ 1 0 Espresso); reflexivity.
Defined.

(** C10: the line a machine operation writes is the text the beverage's
    method returned, byte for byte, followed by the line feed of [print];
    for [add_milk] this is under the capability check having passed. *)
Theorem machine_surfaces_verbatim
    (w w1 : world) (self coffee : ref) (o : op) (s : string) :
  heap w !! self = Some (OMachine coffee) ->
  (o = OpAddMilk -> isinstance coffee MilkCoffee w = Ok true w) ->
  call_method coffee (op_meth o) w = Ok (VStr s) w1 ->
  run_op self o w = Ok tt (printed w1 s) /\
  stdout (printed w1 s) = stdout w +:+ s +:+ newline /\
  lines (s +:+ newline) = [s].
Proof.
  intros Hs Hcap Hcall.
  destruct (call_method_inv _ _ _ _ _ Hcall) as (c & b & Hc & Hm & Hv & ->).
  destruct b as [|s']; [discriminate Hv|]. injection Hv as ->.
  split; [|split].
  - destruct o; simpl in *.
    + apply (machine_prepare_Ok _ _ _ _ _ Hs Hc Hm).
    + specialize (Hcap eq_refl).
      rewrite (isinstance_Ok _ _ _ MilkCoffee Hc) in Hcap.
      injection Hcap as Hi.
      apply (machine_add_milk_Ok _ _ _ _ _ Hs Hc Hi Hm).
  - reflexivity.
  - apply lines_single. apply (description_line _ _ _ Hm).
Qed.

Lemma machine_surfaces_verbatim_witness :
  let w := World [OInst Cappuccino; OMachine 0] "" [] in
  let s := "🥛 Añadiendo leche al Cappuccino..." in
  run_op 1 OpAddMilk w = Ok tt (printed (logged w 0 add_milk) s) /\
  stdout (printed (logged w 0 add_milk) s) = stdout w +:+ s +:+ newline /\
  lines (s +:+ newline) = [s].
Proof.
  apply (machine_surfaces_verbatim _ _ 1 0 OpAddMilk); reflexivity.
Defined.

(** ** The beverages *)

(** C3: for each of Espresso, Cappuccino and Latte, [prepare] returns a
    fixed text that is not empty and differs from that of any other
    variant; any number of calls on an instance all return that text, and
    leave heap and output as they were. *)
Theorem prepare_fixed_distinct_idempotent
    (c d : cls) (w : world) (r : ref) (n : nat) :
  c ∈ variants -> d ∈ variants ->
  heap w !! r = Some (OInst c) ->
  exists (s t : string) (w' : world),
    description c prepare = Some s /\ description d prepare = Some t /\
    s <> "" /\ (c <> d -> s <> t) /\
    call_repeatedly n r prepare w = Ok (replicate n (VStr s)) w' /\
    heap w' = heap w /\ stdout w' = stdout w.
Proof.
  intros Hc Hd Hr.
  assert (exists s, lookup_method c prepare = Some (Return s)) as [s Hs].
  { destruct (variants_inv _ Hc) as [-> | [-> | ->]]; eexists; reflexivity. }
  assert (exists t, lookup_method d prepare = Some (Return t)) as [t Ht].
  { destruct (variants_inv _ Hd) as [-> | [-> | ->]]; eexists; reflexivity. }
  exists s, t,
    (World (heap w) (stdout w) (calls w ++ replicate n (r, prepare))).
  repeat apply conj.
  - now apply description_lookup.
  - now apply description_lookup.
  - apply (description_line _ _ _ Hs).
  - intros Hne ->. apply Hne.
    apply (description_injective c d prepare t); now apply description_lookup.
  - apply (call_repeatedly_Ok n _ _ _ _ _ Hr Hs).
  - reflexivity.
  - reflexivity.
Qed.

Lemma prepare_fixed_distinct_idempotent_witness :
  exists (s t : string) (w' : world),
    description Espresso prepare = Some s /\
    description Latte prepare = Some t /\
    s <> "" /\ (Espresso <> Latte -> s <> t) /\
    call_repeatedly 3 0 prepare (World [OInst Espresso] "" []) =
      Ok (replicate 3 (VStr s)) w' /\
    heap w' = [OInst Espresso] /\ stdout w' = "".
Proof.
  apply (prepare_fixed_distinct_idempotent Espresso Latte
           (World [OInst Espresso] "" []) 0 3).
  - unfold variants. repeat constructor.
  - unfold variants. repeat constructor.
  - reflexivity.
Defined.

(** C4: for Cappuccino and Latte, [add_milk] returns a fixed text that is
    not empty and differs between the two; any number of calls return
    that text and leave heap and output as they were.  Either variant
    defines [prepare] as well and has no abstract method left, and over
    the whole table an instantiable class has both methods or no
    [add_milk] at all. *)
Theorem add_milk_fixed_distinct_idempotent
    (c d : cls) (w : world) (r : ref) (n : nat) :
  c ∈ milk_variants -> d ∈ milk_variants ->
  heap w !! r = Some (OInst c) ->
  exists (s t p : string) (w' : world),
    description c add_milk = Some s /\ description d add_milk = Some t /\
    s <> "" /\ (c <> d -> s <> t) /\
    call_repeatedly n r add_milk w = Ok (replicate n (VStr s)) w' /\
    heap w' = heap w /\ stdout w' = stdout w /\
    description c prepare = Some p /\ abstract_methods c = [] /\
    (forall k : cls,
        is_abstract k = false ->
        if issubclass k MilkCoffee
        then is_Some (description k prepare) /\
             is_Some (description k add_milk)
        else lookup_method k add_milk = None).
Proof.
  intros Hc Hd Hr.
  assert (exists s p, lookup_method c add_milk = Some (Return s) /\
                      lookup_method c prepare = Some (Return p) /\
                      abstract_methods c = []) as (s & p & Hs & Hp & Hab).
  { destruct (milk_variants_inv _ Hc) as [-> | ->];
      do 2 eexists; repeat split; reflexivity. }
  assert (exists t, lookup_method d add_milk = Some (Return t)) as [t Ht].
  { destruct (milk_variants_inv _ Hd) as [-> | ->]; eexists; reflexivity. }
  exists s, t, p,
    (World (heap w) (stdout w) (calls w ++ replicate n (r, add_milk))).
  repeat apply conj.
  - now apply description_lookup.
  - now apply description_lookup.
  - apply (description_line _ _ _ Hs).
  - intros Hne ->. apply Hne.
    apply (description_injective c d add_milk t);
      now apply description_lookup.
  - apply (call_repeatedly_Ok n _ _ _ _ _ Hr Hs).
  - reflexivity.
  - reflexivity.
  - now apply description_lookup.
  - exact Hab.
  - intros k Hk. destruct k; try discriminate Hk;
      try reflexivity; split; eexists; reflexivity.
Qed.

Lemma add_milk_fixed_distinct_idempotent_witness :
  exists (s t p : string) (w' : world),
    description Cappuccino add_milk = Some s /\
    description Latte add_milk = Some t /\
    s <> "" /\ (Cappuccino <> Latte -> s <> t) /\
    call_repeatedly 2 0 add_milk (World [OInst Cappuccino] "" []) =
      Ok (replicate 2 (VStr s)) w' /\
    heap w' = [OInst Cappuccino] /\ stdout w' = "" /\
    description Cappuccino prepare = Some p /\
    abstract_methods Cappuccino = [] /\
    (forall k : cls,
        is_abstract k = false ->
        if issubclass k MilkCoffee
        then is_Some (description k prepare) /\
             is_Some (description k add_milk)
        else lookup_method k add_milk = None).
Proof.
  apply (add_milk_fixed_distinct_idempotent Cappuccino Latte
           (World [OInst Cappuccino] "" []) 0 2).
  - unfold milk_variants. repeat constructor.
  - unfold milk_variants. repeat constructor.
  - reflexivity.
Defined.

(** ** The script and the scenarios *)

(** C5: run from process start, the script returns normally and leaves
    exactly six lines on standard output: the banner, then the texts of
    Espresso's [prepare], Cappuccino's [prepare] and [add_milk], and
    Latte's [prepare] and [add_milk], in this order, each line ended by a
    line feed, and one per operation invoked. *)
Theorem main_prints_six_lines :
  exists w' : world,
    main empty_world = Ok tt w' /\
    map Some (lines (stdout w')) =
      [Some "---- Máquina de Café ----";
       description Espresso prepare;
       description Cappuccino prepare;
       description Cappuccino add_milk;
       description Latte prepare;
       description Latte add_milk] /\
    length (lines (stdout w')) = 6 /\
    stdout w' = unlines (lines (stdout w')) /\
    calls w' =
      [(0, prepare); (1, prepare); (1, add_milk); (2, prepare);
       (2, add_milk)].
Proof.
  exists (final (main empty_world)).
  repeat apply conj; vm_compute; reflexivity.
Qed.

(** C7: from any world, a machine built on Espresso and asked to [prepare]
    writes one line that contains [Espresso]; a machine built on Cappuccino
    and asked to [prepare] and then [add_milk] writes two lines, the text
    of Cappuccino's [prepare] and the text of its [add_milk], both
    containing [Cappuccino]; the same holds with Latte throughout. *)
Theorem scenarios_name_the_variant (w : world) :
  (exists (m : ref) (w' : world) (l : string),
      scenario Espresso [OpPrepare] w = Ok m w' /\
      stdout w' = stdout w +:+ unlines [l] /\
      lines (unlines [l]) = [l] /\
      description Espresso prepare = Some l /\
      contains "Espresso" l = true) /\
  (exists (m : ref) (w' : world) (l1 l2 : string),
      scenario Cappuccino [OpPrepare; OpAddMilk] w = Ok m w' /\
      stdout w' = stdout w +:+ unlines [l1; l2] /\
      lines (unlines [l1; l2]) = [l1; l2] /\
      description Cappuccino prepare = Some l1 /\
      description Cappuccino add_milk = Some l2 /\
      contains "Cappuccino" l1 = true /\
      contains "Cappuccino" l2 = true) /\
  (exists (m : ref) (w' : world) (l1 l2 : string),
      scenario Latte [OpPrepare; OpAddMilk] w = Ok m w' /\
      stdout w' = stdout w +:+ unlines [l1; l2] /\
      lines (unlines [l1; l2]) = [l1; l2] /\
      description Latte prepare = Some l1 /\
      description Latte add_milk = Some l2 /\
      contains "Latte" l1 = true /\
      contains "Latte" l2 = true).
Proof.
  split; [|split].
  - destruct (plain_scenario_Ok w Espresso _ eq_refl eq_refl)
      as (w1 & Hrun & Hout).
    eexists _, w1, _. split; [exact Hrun|]. split; [exact Hout|].
    repeat apply conj; reflexivity.
  - destruct (milk_scenario_Ok w Cappuccino _ _ eq_refl eq_refl eq_refl
                eq_refl) as (w1 & Hrun & Hout).
    eexists _, w1, _, _. split; [exact Hrun|]. split; [exact Hout|].
    repeat apply conj; reflexivity.
  - destruct (milk_scenario_Ok w Latte _ _ eq_refl eq_refl eq_refl eq_refl)
      as (w1 & Hrun & Hout).
    eexists _, w1, _, _. split; [exact Hrun|]. split; [exact Hout|].
    repeat apply conj; reflexivity.
Qed.

(** ** Frame *)

(** C9: no sequence of [prepare] and [add_milk] invocations on a machine
    changes the heap: afterwards the machine still holds the reference it
    was constructed with, and the object behind that reference is the one
    it was. *)
Theorem machine_ops_frame
    (w : world) (self coffee : ref) (o : obj) (os : list op) :
  heap w !! self = Some (OMachine coffee) ->
  heap w !! coffee = Some o ->
  heap (final (run_ops self os w)) = heap w /\
  heap (final (run_ops self os w)) !! self = Some (OMachine coffee) /\
  heap (final (run_ops self os w)) !! coffee = Some o.
Proof.
  intros Hs Hc. rewrite run_ops_heap. auto.
Qed.

Lemma machine_ops_frame_witness :
  let w := World [OInst Latte; OMachine 0] "" [] in
  let os := [OpPrepare; OpAddMilk; OpAddMilk; OpPrepare] in
  heap (final (run_ops 1 os w)) = heap w /\
  heap (final (run_ops 1 os w)) !! 1 = Some (OMachine 0) /\
  heap (final (run_ops 1 os w)) !! 0 = Some (OInst Latte).
Proof.
  apply (machine_ops_frame (World [OInst Latte; OMachine 0] "" []) 1 0
           (OInst Latte) [OpPrepare; OpAddMilk; OpAddMilk; OpPrepare]);
    reflexivity.
Defined.

(** ** Further lemmas on the table and on runs *)

Lemma append_nil_r (s : string) : s +:+ "" = s.
Proof.
  induction s as [|a s IH]; [reflexivity|].
  rewrite append_cons. now rewrite IH.
Qed.

(** A method [add_milk] resolves on exactly the classes under
    [MilkCoffee]. *)
Lemma add_milk_resolves_capable (c : cls) :
  is_Some (lookup_method c add_milk) <-> issubclass c MilkCoffee = true.
Proof.
  destruct c;
    (split;
     [ intros [b Hb]; vm_compute in Hb; (reflexivity || discriminate Hb)
     | intros H; vm_compute in H;
       (discriminate H || (eexists; reflexivity)) ]).
Qed.


(** The branch of [CoffeeMachine.add_milk] that the guard skips. *)
Lemma machine_add_milk_skip (w : world) (self coffee : ref) (c : cls) :
  heap w !! self = Some (OMachine coffee) ->
  heap w !! coffee = Some (OInst c) ->
  issubclass c MilkCoffee = false ->
  CoffeeMachine.add_milk self w = Ok tt w.
Proof.
  intros Hs Hc Hi. unfold CoffeeMachine.add_milk.
  rewrite (bind_Ok _ _ _ _ _ (get_coffee_Ok _ _ _ Hs)).
  rewrite (bind_Ok _ _ _ _ _ (isinstance_Ok _ _ _ MilkCoffee Hc)).
  now rewrite Hi.
Qed.

(** A world with one more call logged is another world. *)
Lemma printed_logged_neq (w : world) (r : ref) (m : meth) (s : string) :
  printed (logged w r m) s <> w.
Proof.
  intros H. apply (f_equal calls) in H. simpl in H.
  apply (f_equal length) in H. rewrite length_app in H. simpl in H. lia.
Qed.

Lemma op_lines_no_LF (c : cls) (os : list op) :
  forallb (fun l => negb (has_LF l)) (op_lines c os) = true.
Proof.
  induction os as [|o os IH]; [reflexivity|]. simpl.
  destruct (description c (op_meth o)) as [s|] eqn:Hd; [|exact IH].
  simpl. rewrite IH. apply description_lookup in Hd.
  destruct (description_line _ _ _ Hd) as [-> _]. reflexivity.
Qed.

Lemma scenario_Raise (w w1 : world) (c : cls) (os : list op) (e : exn) :
  is_abstract c = false ->
  let n := length (heap w) in
  run_ops (S n) os
    (World (heap w ++ [OInst c; OMachine n]) (stdout w) (calls w)) =
    Raise e w1 ->
  scenario c os w = Raise e w1.
Proof.
  intros Ha n Hrun.
  destruct (construct_Ok w c Ha) as (Hnew & _ & _).
  unfold scenario. unfold bind in *.
  destruct (new c w) as [coffee w'|e' w']; [|discriminate Hnew].
  rewrite Hnew. fold n. now rewrite Hrun.
Qed.

(** One declared base up, the subclass test still holds. *)
Lemma issubclass_base (c b d : cls) :
  b ∈ bases c -> issubclass b d = true -> issubclass c d = true.
Proof.
  destruct c; simpl; rewrite ?elem_of_cons, ?elem_of_nil; intros Hb Hi;
    repeat (destruct Hb as [-> | Hb]); try contradiction;
    destruct d; (reflexivity || discriminate Hi).
Qed.

Lemma derives_trans (c d e : cls) : derives c d -> derives d e -> derives c e.
Proof.
  intros Hcd Hde. induction Hcd as [c | c b d Hb _ IH].
  - exact Hde.
  - apply (derives_base c b e Hb). now apply IH.
Qed.

Lemma derives_issubclass (c d : cls) : derives c d -> issubclass c d = true.
Proof.
  intros H. induction H as [c | c b d Hb _ IH].
  - now destruct c.
  - apply (issubclass_base c b d Hb IH).
Qed.

Lemma issubclass_derives (c d : cls) : issubclass c d = true -> derives c d.
Proof.
  assert (Hab : derives Coffee ABC).
  { apply (derives_base Coffee ABC ABC); [simpl; repeat constructor|].
    apply derives_refl. }
  assert (Hmc : derives MilkCoffee Coffee).
  { apply (derives_base MilkCoffee Coffee Coffee);
      [simpl; repeat constructor|]. apply derives_refl. }
  assert (Hec : derives Espresso Coffee).
  { apply (derives_base Espresso Coffee Coffee);
      [simpl; repeat constructor|]. apply derives_refl. }
  assert (Hcm : derives Cappuccino MilkCoffee).
  { apply (derives_base Cappuccino MilkCoffee MilkCoffee);
      [simpl; repeat constructor|]. apply derives_refl. }
  assert (Hlm : derives Latte MilkCoffee).
  { apply (derives_base Latte MilkCoffee MilkCoffee);
      [simpl; repeat constructor|]. apply derives_refl. }
  destruct c, d; intros H; try discriminate H; try apply derives_refl;
    eauto 6 using derives_trans.
Qed.

(** ** Construction *)

(** X1: a constructor call is refused with [TypeError], the world left as it
    was, for exactly the two classes that keep an abstract method, [Coffee]
    and [MilkCoffee].  For every other class it returns a reference that
    was free before, behind which an instance of the class now lives, and
    every object that existed stays where it was. *)
Theorem new_refuses_exactly_abstract (w : world) (c : cls) :
  (new c w = Raise TypeError w <-> c = Coffee \/ c = MilkCoffee) /\
  (c <> Coffee -> c <> MilkCoffee ->
   exists w' : world,
     new c w = Ok (length (heap w)) w' /\
     heap w !! length (heap w) = None /\
     heap w' !! length (heap w) = Some (OInst c) /\
     (forall (r : ref) (o : obj),
         heap w !! r = Some o -> heap w' !! r = Some o) /\
     stdout w' = stdout w /\ calls w' = calls w).
Proof.
  split.
  - unfold new. rewrite is_abstract_table.
    destruct c; split; intros H; try discriminate H; auto;
      destruct H as [H | H]; discriminate H.
  - intros H1 H2.
    assert (Ha : is_abstract c = false).
    { rewrite is_abstract_table. destruct c; congruence. }
    exists (World (heap w ++ [OInst c]) (stdout w) (calls w)).
    split; [apply (new_Ok _ _ Ha)|]. split; [|split; [|split]].
    + now apply lookup_ge_None_2.
    + simpl. now apply list_lookup_middle.
    + intros r o Hr. simpl. now apply lookup_app_l_Some.
    + auto.
Qed.

Lemma new_refuses_exactly_abstract_witness :
  new Coffee empty_world = Raise TypeError empty_world /\
  exists w' : world,
    new Latte empty_world = Ok (length (heap empty_world)) w' /\
    heap empty_world !! length (heap empty_world) = None /\
    heap w' !! length (heap empty_world) = Some (OInst Latte) /\
    (forall (r : ref) (o : obj),
        heap empty_world !! r = Some o -> heap w' !! r = Some o) /\
    stdout w' = stdout empty_world /\ calls w' = calls empty_world.
Proof.
  split.
  - apply (proj1 (new_refuses_exactly_abstract empty_world Coffee)).
    left. reflexivity.
  - apply (proj2 (new_refuses_exactly_abstract empty_world Latte));
      discriminate.
Defined.

(** X2: [CoffeeMachine(coffee)] never raises and checks nothing about its
    argument; it returns a reference that was free before, reading
    [self.coffee] on it gives back the argument, every object that existed
    stays where it was, and nothing is written or called. *)
Theorem init_stores_reference (w : world) (coffee : ref) :
  exists w' : world,
    CoffeeMachine.__init__ coffee w = Ok (length (heap w)) w' /\
    CoffeeMachine.get_coffee (length (heap w)) w' = Ok coffee w' /\
    heap w !! length (heap w) = None /\
    (forall (r : ref) (o : obj),
        heap w !! r = Some o -> heap w' !! r = Some o) /\
    stdout w' = stdout w /\ calls w' = calls w.
Proof.
  exists (World (heap w ++ [OMachine coffee]) (stdout w) (calls w)).
  split; [reflexivity|]. split; [|split; [|split]].
  - apply get_coffee_Ok. simpl. now apply list_lookup_middle.
  - now apply lookup_ge_None_2.
  - intros r o Hr. simpl. now apply lookup_app_l_Some.
  - auto.
Qed.

Lemma init_stores_reference_witness :
  exists w' : world,
    CoffeeMachine.__init__ 7 empty_world = Ok 0 w' /\
    CoffeeMachine.get_coffee 0 w' = Ok 7 w' /\
    heap empty_world !! 0 = None /\
    (forall (r : ref) (o : obj),
        heap empty_world !! r = Some o -> heap w' !! r = Some o) /\
    stdout w' = stdout empty_world /\ calls w' = calls empty_world.
Proof. apply (init_stores_reference empty_world 7). Defined.

(** X3: the constructor does not validate the injected object.  Around an
    instance of an instantiable class that resolves no [prepare], the
    machine is built all the same, and the error only shows when [prepare]
    is invoked: [AttributeError], with both objects allocated and nothing
    written or logged. *)
Theorem prepare_on_object_without_prepare (w : world) (c : cls) :
  is_abstract c = false ->
  lookup_method c prepare = None ->
  exists w' : world,
    scenario c [OpPrepare] w = Raise AttributeError w' /\
    heap w' = heap w ++ [OInst c; OMachine (length (heap w))] /\
    stdout w' = stdout w /\ calls w' = calls w.
Proof.
  intros Ha Hm.
  destruct (construct_Ok w c Ha) as (_ & Hs & Hc).
  set (n := length (heap w)) in *.
  set (w0 := World (heap w ++ [OInst c; OMachine n]) (stdout w) (calls w))
    in *.
  exists w0. split; [|auto].
  apply (scenario_Raise _ _ _ _ _ Ha). fold n w0. simpl.
  apply bind_Raise. unfold CoffeeMachine.prepare.
  rewrite (bind_Ok _ _ _ _ _ (get_coffee_Ok _ _ _ Hs)).
  apply bind_Raise. apply (call_method_missing _ _ _ _ Hc Hm).
Qed.

Lemma prepare_on_object_without_prepare_witness :
  exists w' : world,
    scenario ABC [OpPrepare] empty_world = Raise AttributeError w' /\
    heap w' = heap empty_world ++ [OInst ABC; OMachine 0] /\
    stdout w' = stdout empty_world /\ calls w' = calls empty_world.
Proof.
  apply (prepare_on_object_without_prepare empty_world ABC); reflexivity.
Defined.

(** ** Sequences of operations *)

(** X4: on a machine that holds an instance of an instantiable class with
    the base capability, every sequence of [prepare] and [add_milk]
    invocations returns normally; it writes, in order, one line per
    invocation whose method the class has, skips the others, logs the
    matching calls, and leaves the heap as it was.  What an invocation
    writes does not depend on the invocations before it. *)
Theorem run_ops_output
    (w : world) (self coffee : ref) (c : cls) (os : list op) :
  heap w !! self = Some (OMachine coffee) ->
  heap w !! coffee = Some (OInst c) ->
  issubclass c Coffee = true ->
  is_abstract c = false ->
  run_ops self os w =
    Ok tt (World (heap w) (stdout w +:+ unlines (op_lines c os))
                 (calls w ++ op_calls coffee c os)) /\
  lines (unlines (op_lines c os)) = op_lines c os.
Proof.
  intros Hs Hc Hi Ha. split; [|apply lines_unlines, op_lines_no_LF].
  pose proof (variants_inv _ (base_capability_variants _ Hi Ha)) as Hv.
  revert w Hs Hc. induction os as [|o os IH]; intros w Hs Hc.
  - simpl. unfold ret, unlines. simpl.
    rewrite append_nil_r, app_nil_r. now destruct w.
  - simpl. destruct (description c (op_meth o)) as [s|] eqn:Hd.
    + pose proof (proj1 (description_lookup _ _ _) Hd) as Hm.
      assert (Hrun : run_op self o w =
                     Ok tt (printed (logged w coffee (op_meth o)) s)).
      { destruct o; simpl in *.
        - apply (machine_prepare_Ok _ _ _ _ _ Hs Hc Hm).
        - assert (Hcap : issubclass c MilkCoffee = true).
          { apply add_milk_resolves_capable. rewrite Hm. eauto. }
          apply (machine_add_milk_Ok _ _ _ _ _ Hs Hc Hcap Hm). }
      rewrite (bind_Ok _ _ _ _ _ Hrun).
      rewrite (IH (printed (logged w coffee (op_meth o)) s) Hs Hc).
      simpl. unfold unlines. simpl.
      rewrite !append_assoc, <- app_assoc. reflexivity.
    + destruct o; simpl in Hd.
      * exfalso. destruct Hv as [-> | [-> | ->]]; discriminate Hd.
      * assert (Hcap : issubclass c MilkCoffee = false).
        { destruct Hv as [-> | [-> | ->]];
            (reflexivity || discriminate Hd). }
        rewrite (bind_Ok _ _ _ _ _
                   (machine_add_milk_skip _ _ _ _ Hs Hc Hcap)).
        apply (IH w Hs Hc).
Qed.

Lemma run_ops_output_witness :
  let w := World [OInst Espresso; OMachine 0] "" [] in
  let os := [OpAddMilk; OpPrepare; OpAddMilk; OpPrepare] in
  run_ops 1 os w =
    Ok tt (World (heap w) (stdout w +:+ unlines (op_lines Espresso os))
                 (calls w ++ op_calls 0 Espresso os)) /\
  lines (unlines (op_lines Espresso os)) = op_lines Espresso os.
Proof.
  apply (run_ops_output (World [OInst Espresso; OMachine 0] "" []) 1 0
           Espresso [OpAddMilk; OpPrepare; OpAddMilk; OpPrepare]);
    reflexivity.
Defined.

(** X5: the guard of [CoffeeMachine.add_milk] is exact.  The [isinstance]
    test passes on precisely the classes on which the name [add_milk]
    resolves, so the machine skips silently in exactly the cases where
    calling the beverage's [add_milk] directly would raise
    [AttributeError], and never when the beverage has the method. *)
Theorem add_milk_guard_exact (w : world) (self coffee : ref) (c : cls) :
  heap w !! self = Some (OMachine coffee) ->
  heap w !! coffee = Some (OInst c) ->
  (issubclass c MilkCoffee = true <-> is_Some (lookup_method c add_milk)) /\
  (CoffeeMachine.add_milk self w = Ok tt w <->
   call_method coffee add_milk w = Raise AttributeError w).
Proof.
  intros Hs Hc. split; [symmetry; apply add_milk_resolves_capable|].
  destruct (lookup_method c add_milk) as [b|] eqn:Hm.
  - assert (Hi : issubclass c MilkCoffee = true).
    { apply add_milk_resolves_capable. rewrite Hm. eauto. }
    rewrite (machine_add_milk_Ok _ _ _ _ _ Hs Hc Hi Hm).
    rewrite (call_method_Ok _ _ _ _ _ Hc Hm).
    split; intros H; [|discriminate H].
    injection H as H. now apply printed_logged_neq in H.
  - assert (Hi : issubclass c MilkCoffee = false).
    { destruct (issubclass c MilkCoffee) eqn:E; [|reflexivity].
      apply add_milk_resolves_capable in E. rewrite Hm in E.
      destruct E as [b E]. discriminate E. }
    rewrite (machine_add_milk_skip _ _ _ _ Hs Hc Hi).
    rewrite (call_method_missing _ _ _ _ Hc Hm).
    split; reflexivity.
Qed.

Lemma add_milk_guard_exact_witness :
  let w := World [OInst Espresso; OMachine 0] "" [] in
  (issubclass Espresso MilkCoffee = true <->
   is_Some (lookup_method Espresso add_milk)) /\
  (CoffeeMachine.add_milk 1 w = Ok tt w <->
   call_method 0 add_milk w = Raise AttributeError w).
Proof.
  apply (add_milk_guard_exact (World [OInst Espresso; OMachine 0] "" [])
           1 0 Espresso); reflexivity.
Defined.

(** ** The hierarchy *)

(** X7: the subclass test computed from the resolution order is the
    relation the [class] statements declare, the reflexive and transitive
    closure of [bases]; it is transitive and antisymmetric, so a class
    with the milk capability always has the base capability. *)
Theorem issubclass_is_derivation (c d e : cls) :
  (issubclass c d = true <-> derives c d) /\
  (issubclass c d = true -> issubclass d e = true ->
   issubclass c e = true) /\
  (issubclass c d = true -> issubclass d c = true -> c = d) /\
  (issubclass c MilkCoffee = true -> issubclass c Coffee = true).
Proof.
  split; [|split; [|split]].
  - split; [apply issubclass_derives | apply derives_issubclass].
  - intros H1 H2. apply derives_issubclass.
    apply (derives_trans c d e); now apply issubclass_derives.
  - destruct c, d; intros H1 H2; try reflexivity;
      (discriminate H1 || discriminate H2).
  - destruct c; intros H; (reflexivity || discriminate H).
Qed.

Lemma issubclass_is_derivation_witness :
  issubclass Latte ABC = true /\ Latte <> ABC /\
  issubclass Latte Coffee = true.
Proof.
  pose proof (issubclass_is_derivation Latte MilkCoffee ABC)
    as (_ & Htrans & _ & _).
  pose proof (issubclass_is_derivation Latte ABC Coffee)
    as (_ & _ & _ & Hbase).
  split; [apply Htrans; reflexivity|].
  split; [discriminate | apply Hbase; reflexivity].
Defined.

(** ** Lemmas on the guard and on what a machine writes *)

Lemma run_ops_cons (self : ref) (o : op) (os : list op) (w : world) :
  run_ops self (o :: os) w =
  bind (run_op self o) (fun _ => run_ops self os) w.
Proof. reflexivity. Qed.

Lemma lookup_add_milk_None (c : cls) :
  issubclass c MilkCoffee = false -> lookup_method c add_milk = None.
Proof. destruct c; intros H; (reflexivity || discriminate H). Qed.

Lemma lookup_prepare_None (c : cls) :
  lookup_method c prepare = None -> issubclass c Coffee = false.
Proof. destruct c; intros H; (reflexivity || discriminate H). Qed.

(** With the capability, [add_milk] is its dispatch. *)
Lemma add_milk_dispatch (w : world) (self coffee : ref) (c : cls) :
  heap w !! self = Some (OMachine coffee) ->
  heap w !! coffee = Some (OInst c) ->
  issubclass c MilkCoffee = true ->
  CoffeeMachine.add_milk self w = milk_dispatch self w.
Proof.
  intros Hs Hc Hi. unfold CoffeeMachine.add_milk.
  rewrite (bind_Ok _ _ _ _ _ (get_coffee_Ok _ _ _ Hs)).
  rewrite (bind_Ok _ _ _ _ _ (isinstance_Ok _ _ _ MilkCoffee Hc)).
  rewrite Hi. reflexivity.
Qed.

(** Without it, the dispatch finds no method to call. *)
Lemma milk_dispatch_missing (w : world) (self coffee : ref) (c : cls) :
  heap w !! self = Some (OMachine coffee) ->
  heap w !! coffee = Some (OInst c) ->
  issubclass c MilkCoffee = false ->
  milk_dispatch self w = Raise AttributeError w.
Proof.
  intros Hs Hc Hi. unfold milk_dispatch.
  rewrite (bind_Ok _ _ _ _ _ (get_coffee_Ok _ _ _ Hs)).
  apply bind_Raise.
  apply (call_method_missing _ _ _ _ Hc (lookup_add_milk_None _ Hi)).
Qed.

(** Without the capability, the [add_milk] invocations of a sequence can be
    struck out. *)
Lemma run_ops_without_add_milk (coffee : ref) (c : cls) (os : list op) :
  issubclass c MilkCoffee = false ->
  forall (w : world) (self : ref),
    heap w !! self = Some (OMachine coffee) ->
    heap w !! coffee = Some (OInst c) ->
    run_ops self os w = run_ops self (without_add_milk os) w.
Proof.
  intros Hi. induction os as [|o os IH]; intros w self Hs Hc.
  - reflexivity.
  - destruct o.
    + change (without_add_milk (OpPrepare :: os))
        with (OpPrepare :: without_add_milk os).
      rewrite !run_ops_cons. unfold bind.
      pose proof (run_op_heap w self OpPrepare) as Hh.
      destruct (run_op self OpPrepare w) as [[] w1|e w1]; [|reflexivity].
      simpl in Hh. apply IH; rewrite Hh; assumption.
    + change (without_add_milk (OpAddMilk :: os))
        with (without_add_milk os).
      rewrite run_ops_cons.
      rewrite (bind_Ok (run_op self OpAddMilk) _ _ _ _
                 (machine_add_milk_skip _ _ _ _ Hs Hc Hi)).
      now apply IH.
Qed.



(** ** Safety of the milk dispatch *)

(** C8: whatever beverage instance the machine holds, [add_milk] tests the
    capability before it dispatches: it is the dispatch to the beverage's
    [add_milk] when the test passes and a plain return otherwise, so the
    dispatch is entered under the capability only.  Without the capability
    nothing is called, where the dispatch on its own would have raised
    [AttributeError], and the [add_milk] invocations of any sequence can be
    struck out.  In the log, every call of [add_milk] went to an instance
    of a class with the capability. *)
Theorem milk_dispatch_only_on_capable
    (w : world) (self coffee : ref) (c : cls) (os : list op) :
  heap w !! self = Some (OMachine coffee) ->
  heap w !! coffee = Some (OInst c) ->
  CoffeeMachine.add_milk self w =
    (if issubclass c MilkCoffee then milk_dispatch self w else Ok tt w) /\
  (CoffeeMachine.add_milk self w = milk_dispatch self w <->
   issubclass c MilkCoffee = true) /\
  (issubclass c MilkCoffee = false ->
   CoffeeMachine.add_milk self w = Ok tt w /\
   milk_dispatch self w = Raise AttributeError w /\
   run_ops self os w = run_ops self (without_add_milk os) w) /\
  (milk_safe w = true ->
   milk_safe (final (run_ops self os w)) = true /\
   forall r : ref,
     (r, add_milk) ∈ calls (final (run_ops self os w)) ->
     exists c' : cls,
       heap (final (run_ops self os w)) !! r = Some (OInst c') /\
       issubclass c' MilkCoffee = true).
Proof.
  intros Hs Hc. split; [|split; [|split]].
  - destruct (issubclass c MilkCoffee) eqn:Hi.
    + apply (add_milk_dispatch _ _ _ _ Hs Hc Hi).
    + apply (machine_add_milk_skip _ _ _ _ Hs Hc Hi).
  - destruct (issubclass c MilkCoffee) eqn:Hi.
    + split; [reflexivity|]. intros _.
      apply (add_milk_dispatch _ _ _ _ Hs Hc Hi).
    + rewrite (machine_add_milk_skip _ _ _ _ Hs Hc Hi).
      rewrite (milk_dispatch_missing _ _ _ _ Hs Hc Hi).
      split; intros H; discriminate H.
  - intros Hi. split; [|split].
    + apply (machine_add_milk_skip _ _ _ _ Hs Hc Hi).
    + apply (milk_dispatch_missing _ _ _ _ Hs Hc Hi).
    + apply (run_ops_without_add_milk coffee c os Hi w self Hs Hc).
  - intros Hw.
    assert (Hsafe : milk_safe (final (run_ops self os w)) = true).
    { revert Hw. apply (run_ops_invariant (fun w' => milk_safe w' = true)).
      intros w1 self1 o. apply run_op_milk_safe. }
    split; [exact Hsafe|].
    intros r Hr. unfold milk_safe in Hsafe.
    rewrite forallb_forall in Hsafe.
    apply list_elem_of_In in Hr. specialize (Hsafe _ Hr). simpl in Hsafe.
    unfold milk_capable in Hsafe.
    destruct (heap (final (run_ops self os w)) !! r) as [[c'|k]|];
      try discriminate Hsafe.
    exists c'. auto.
Qed.

Lemma milk_dispatch_only_on_capable_witness :
  let w := World [OInst Espresso; OMachine 0] "" [] in
  let os := [OpAddMilk; OpPrepare; OpAddMilk] in
  CoffeeMachine.add_milk 1 w =
    (if issubclass Espresso MilkCoffee then milk_dispatch 1 w
     else Ok tt w) /\
  (CoffeeMachine.add_milk 1 w = milk_dispatch 1 w <->
   issubclass Espresso MilkCoffee = true) /\
  (issubclass Espresso MilkCoffee = false ->
   CoffeeMachine.add_milk 1 w = Ok tt w /\
   milk_dispatch 1 w = Raise AttributeError w /\
   run_ops 1 os w = run_ops 1 (without_add_milk os) w) /\
  (milk_safe w = true ->
   milk_safe (final (run_ops 1 os w)) = true /\
   forall r : ref,
     (r, add_milk) ∈ calls (final (run_ops 1 os w)) ->
     exists c' : cls,
       heap (final (run_ops 1 os w)) !! r = Some (OInst c') /\
       issubclass c' MilkCoffee = true).
Proof.
  apply (milk_dispatch_only_on_capable
           (World [OInst Espresso; OMachine 0] "" []) 1 0 Espresso
           [OpAddMilk; OpPrepare; OpAddMilk]);
    reflexivity.
Defined.

(** ** Failure of a machine operation *)

(** X6: on a machine that holds a beverage instance, the only operation
    that can raise is [prepare], on a class where [prepare] does not
    resolve, which is a class outside [Coffee]; the exception is
    [AttributeError] and the world is left as the operation found it, with
    no line written and no call logged.  [add_milk] never raises. *)
Theorem machine_op_raise_atomic
    (w w' : world) (self coffee : ref) (c : cls) (o : op) (e : exn) :
  heap w !! self = Some (OMachine coffee) ->
  heap w !! coffee = Some (OInst c) ->
  run_op self o w = Raise e w' ->
  w' = w /\ e = AttributeError /\ o = OpPrepare /\
  lookup_method c prepare = None /\ issubclass c Coffee = false.
Proof.
  intros Hs Hc H. destruct o; simpl in H.
  - destruct (lookup_method c prepare) as [b|] eqn:Hm.
    + rewrite (machine_prepare_Ok _ _ _ _ _ Hs Hc Hm) in H. discriminate H.
    + unfold CoffeeMachine.prepare in H.
      rewrite (bind_Ok _ _ _ _ _ (get_coffee_Ok _ _ _ Hs)) in H.
      rewrite (bind_Raise _ _ _ _ _ (call_method_missing _ _ _ _ Hc Hm))
        in H.
      injection H as <- <-.
      repeat apply conj; try reflexivity.
      now apply lookup_prepare_None.
  - destruct (issubclass c MilkCoffee) eqn:Hi.
    + destruct (proj2 (add_milk_resolves_capable c) Hi) as [b Hm].
      rewrite (machine_add_milk_Ok _ _ _ _ _ Hs Hc Hi Hm) in H.
      discriminate H.
    + rewrite (machine_add_milk_skip _ _ _ _ Hs Hc Hi) in H.
      discriminate H.
Qed.

Lemma machine_op_raise_atomic_witness :
  let w := World [OInst ABC; OMachine 0] "" [] in
  run_op 1 OpPrepare w = Raise AttributeError w /\
  w = w /\ AttributeError = AttributeError /\ OpPrepare = OpPrepare /\
  lookup_method ABC prepare = None /\ issubclass ABC Coffee = false.
Proof.
  split.
  - reflexivity.
  - apply (machine_op_raise_atomic
             (World [OInst ABC; OMachine 0] "" []) _ 1 0 ABC OpPrepare
             AttributeError); reflexivity.
Defined.

(** ** Abstract bodies are never run *)


